(** * The HTTP client pool of core/scenario/client_pool.go

    A shallow embedding of [clientPool] (a pool of [*http.Client] kept in a
    buffered Go channel) and of the channel operations it relies on, followed
    by the properties of [NewClientPool], [Get], [Put], [Len] and [Done].

    Execution is sequential: one goroutine calls the pool.  The [sync.RWMutex]
    field [mu] is only ever taken in shared mode ([RLock]/[RUnlock]) and is
    released on every path, so in a sequential run it never changes what an
    operation does; it is not part of the state below.

    Go's [int] is modelled by [Z]: the code only compares its [int] arguments
    and counts from 0 up to [initialCap], so no operation on them can wrap.
    How large a buffer [make] can allocate depends on the runtime; that limit
    is a parameter of the model ([chanLimit]). *)

From Stdlib Require Import String ZArith List Bool Lia.
Import ListNotations.
Open Scope Z_scope.

(** ** Values *)

(** The identity of an [http.Client] object. *)
Definition handle := nat.

(** A [*http.Client]: [None] is the nil pointer. *)
Definition ptr := option handle.

(** Go's [error] values built with [errors.New]: [None] is the nil error. *)
Definition error := string.

Definition ErrInvalidCapacity : error := "invalid capacity settings"%string.
Definition ErrNilClient : error := "client is nil. rejecting"%string.

(** The run-time panics the pool can run into. *)
Inductive panic : Type :=
| SendOnClosedChannel
| CloseOfClosedChannel
| CloseOfNilChannel
| MakechanSizeOutOfRange
| NilPointerDereference.

(** What running a piece of code gives: a value, a run-time panic, or a
    goroutine parked forever on a channel operation. *)
Inductive outcome (A : Type) : Type :=
| Ok (a : A)
| Panic (p : panic)
| Blocked.

Arguments Ok {A} a.
Arguments Panic {A} p.
Arguments Blocked {A}.

(** ** Buffered channels of [*http.Client] *)

Module Chan.

(** The channel object: the queued elements (oldest first), the capacity
    given to [make], and whether [close] has been called. *)
Record chan : Type := mkChan {
  buf : list ptr;
  cap : Z;
  closed : bool
}.

(** A value of type [chan *http.Client]: [None] is the nil channel. *)
Definition ref := option chan.

Definition set_buf (ch : chan) (b : list ptr) : chan :=
  mkChan b (cap ch) (closed ch).

Definition set_closed (ch : chan) : chan :=
  mkChan (buf ch) (cap ch) true.

(** [make(chan *http.Client, n)] on a runtime that can allocate a buffer of
    at most [limit] pointers.  The Go runtime refuses a negative size, and a
    size whose buffer exceeds what it can allocate, with the panic
    [makechan: size out of range]; [limit] is never more than that bound
    (just below [2^45] on a 64-bit platform) and is less when memory is
    short. *)
Definition make (limit n : Z) : outcome chan :=
  if (n <? 0) || (limit <? n) then Panic MakechanSizeOutOfRange
  else Ok (mkChan [] n false).

(** [len(c)]. *)
Definition len (c : ref) : Z :=
  match c with
  | None => 0
  | Some ch => Z.of_nat (length (buf ch))
  end.

Definition full (ch : chan) : bool :=
  cap ch <=? Z.of_nat (length (buf ch)).

(** The statement [c <- v] with no other goroutine around: it panics on a
    closed channel, parks on a nil or a full one, and queues [v] otherwise. *)
Definition send (c : ref) (v : ptr) : outcome chan :=
  match c with
  | None => Blocked
  | Some ch =>
      if closed ch then Panic SendOnClosedChannel
      else if full ch then Blocked
      else Ok (set_buf ch (buf ch ++ [v]))
  end.

(** [select { case c <- v: ... default: ... }]: [Ok (Some ch')] when the send
    case ran, [Ok None] when the default case ran.  A send on a closed
    channel can proceed, and proceeds by panicking. *)
Definition try_send (c : ref) (v : ptr) : outcome (option chan) :=
  match c with
  | None => Ok None
  | Some ch =>
      if closed ch then Panic SendOnClosedChannel
      else if full ch then Ok None
      else Ok (Some (set_buf ch (buf ch ++ [v])))
  end.

(** [select { case v = <-c: default: }]: [Some (v, ch')] when the receive
    case ran, [None] when the default case ran.  A receive on a closed and
    drained channel proceeds with the zero value. *)
Definition try_recv (c : ref) : option (ptr * chan) :=
  match c with
  | None => None
  | Some ch =>
      match buf ch with
      | v :: rest => Some (v, set_buf ch rest)
      | [] => if closed ch then Some (None, ch) else None
      end
  end.

(** [close(c)]. *)
Definition close (c : ref) : outcome chan :=
  match c with
  | None => Panic CloseOfNilChannel
  | Some ch =>
      if closed ch then Panic CloseOfClosedChannel else Ok (set_closed ch)
  end.

(** The Go runtime keeps at most [cap] elements in the buffer. *)
Definition wf (ch : chan) : Prop :=
  Z.of_nat (length (buf ch)) <= cap ch.

End Chan.

(** ** The world around the pool *)

(** What the pool does to the outside: a call of the factory (with the pointer
    it returned) and a call of [CloseIdleConnections] on a client. *)
Inductive event : Type :=
| Created (p : ptr)
| IdleClosed (h : handle).

Section ClientPool.

(** The private state of the factory closure. *)
Variable F : Type.

(** The largest buffer capacity [make] can allocate on the runtime at hand. *)
Variable chanLimit : Z.

(** [type Factory func() *http.Client]: a closure, so a call may change the
    closure's state.  The factory of a pool is taken to be a function that
    returns when called: the nil func value, whose call panics, and a function
    that panics or never returns are outside the model, and every statement
    about a call of the factory is a statement about such factories. *)
Definition Factory : Type := F -> ptr * F.

Record world : Type := mkWorld {
  fenv : F;
  events : list event
}.

(** Code that runs in a world and may panic or park. *)
Definition M (A : Type) : Type := world -> outcome (A * world).

Definition ret {A : Type} (a : A) : M A := fun w => Ok (a, w).

Definition bind {A B : Type} (m : M A) (k : A -> M B) : M B :=
  fun w =>
    match m w with
    | Ok (a, w') => k a w'
    | Panic p => Panic p
    | Blocked => Blocked
    end.

Definition lift {A : Type} (o : outcome A) : M A :=
  fun w =>
    match o with
    | Ok a => Ok (a, w)
    | Panic p => Panic p
    | Blocked => Blocked
    end.

Definition emit (e : event) : M unit :=
  fun w => Ok (tt, mkWorld (fenv w) (events w ++ [e])).

(** A call [factory()]. *)
Definition call (factory : Factory) : M ptr :=
  fun w =>
    let (p, s) := factory (fenv w) in
    Ok (p, mkWorld s (events w ++ [Created p])).

(** [client.CloseIdleConnections()] of net/http: the method reads a field of
    its receiver, so a nil receiver is a nil dereference. *)
Definition CloseIdleConnections (client : ptr) : M unit :=
  match client with
  | None => lift (Panic NilPointerDereference)
  | Some h => emit (IdleClosed h)
  end.

Notation "x <- m ;; k" := (bind m (fun x => k))
  (at level 100, m at next level, right associativity).
Notation "m ;;; k" := (bind m (fun _ => k))
  (at level 100, right associativity).

(** ** The pool *)

Record clientPool : Type := mkPool {
  clients : Chan.ref;
  factory : Factory
}.

Definition set_clients (c : clientPool) (ch : Chan.chan) : clientPool :=
  mkPool (Some ch) (factory c).

(** The loop [for i := 0; i < initialCap; i++ { client := pool.factory();
    pool.clients <- client }], with [n] the number of iterations left
    ([initialCap - i]; the body does not read [i]). *)
Fixpoint fill (n : nat) (pool : clientPool) : M clientPool :=
  match n with
  | O => ret pool
  | S n' =>
      client <- call (factory pool) ;;
      ch <- lift (Chan.send (clients pool) client) ;;
      fill n' (set_clients pool ch)
  end.

Definition NewClientPool (initialCap maxCap : Z) (factory : Factory)
  : M (option clientPool * option error) :=
  if (initialCap <? 0) || (maxCap <=? 0) || (initialCap >? maxCap) then
    ret (None, Some ErrInvalidCapacity)
  else
    ch <- lift (Chan.make chanLimit maxCap) ;;
    pool <- fill (Z.to_nat initialCap) (mkPool (Some ch) factory) ;;
    ret (Some pool, None).

Definition getConnsAndFactory (c : clientPool) : Chan.ref * Factory :=
  (clients c, factory c).

Definition Get (c : clientPool) : M (ptr * clientPool) :=
  let (clients, factory) := getConnsAndFactory c in
  match Chan.try_recv clients with
  | Some (client, ch) => ret (client, set_clients c ch)
  | None => client <- call factory ;; ret (client, c)
  end.

Definition Put (c : clientPool) (client : ptr) : M (option error * clientPool) :=
  match client with
  | None => ret (Some ErrNilClient, c)
  | Some _ =>
      match clients c with
      | None =>
          (* pool is closed, close passed client *)
          CloseIdleConnections client ;;; ret (None, c)
      | Some _ =>
          sent <- lift (Chan.try_send (clients c) client) ;;
          match sent with
          | Some ch => ret (None, set_clients c ch)
          | None =>
              (* pool is full, close passed connection *)
              CloseIdleConnections client ;;; ret (None, c)
          end
      end
  end.

Definition Len (c : clientPool) : Z :=
  let (conns, _) := getConnsAndFactory c in
  Chan.len conns.

(** [for c := range ch { c.CloseIdleConnections() }] on a closed channel
    whose buffer holds [queued]: every element is received in turn and the
    loop ends when the buffer is empty. *)
Fixpoint drain (queued : list ptr) : M unit :=
  match queued with
  | [] => ret tt
  | client :: rest => CloseIdleConnections client ;;; drain rest
  end.

Definition Done (c : clientPool) : M clientPool :=
  ch <- lift (Chan.close (clients c)) ;;
  drain (Chan.buf ch) ;;;
  ret (set_clients c (Chan.set_buf ch [])).

(** ** Sequences of calls *)

(** A caller's [Get] and [Put] calls, and what each call gave back. *)
Inductive op : Type :=
| OpGet
| OpPut (client : ptr).

Inductive reply : Type :=
| GetReturned (client : ptr)
| PutReturned (err : option error).

Definition step (o : op) (c : clientPool) : M (reply * clientPool) :=
  match o with
  | OpGet => r <- Get c ;; ret (GetReturned (fst r), snd r)
  | OpPut client => r <- Put c client ;; ret (PutReturned (fst r), snd r)
  end.

Fixpoint run (ops : list op) (c : clientPool) : M (list reply * clientPool) :=
  match ops with
  | [] => ret ([], c)
  | o :: rest =>
      r <- step o c ;;
      rs <- run rest (snd r) ;;
      ret (fst r :: fst rs, snd rs)
  end.

(** [Put] of each of the clients [hs], in order. *)
Definition puts (hs : list handle) : list op :=
  map (fun h => OpPut (Some h)) hs.

(** What [n] successive calls of a factory return, and the closure's state
    after them. *)
Fixpoint produce (n : nat) (f : Factory) (s : F) : list ptr * F :=
  match n with
  | O => ([], s)
  | S n' =>
      let (p, s1) := f s in
      let (ps, s2) := produce n' f s1 in
      (p :: ps, s2)
  end.

(** ** Pool states *)

(** The pool is open on the channel [ch]: its buffer reference is [ch], and
    [ch] has not been closed. *)
Definition open_on (c : clientPool) (ch : Chan.chan) : Prop :=
  clients c = Some ch /\ Chan.closed ch = false.

(** A factory that never returns the nil pointer. *)
Definition makes_clients (f : Factory) : Prop :=
  forall s, fst (f s) <> None.

(** What holds of a pool built by [NewClientPool] with capacity [maxCap]
    for as long as only [Get] and [Put] are called on it. *)
Definition in_service (maxCap : Z) (c : clientPool) : Prop :=
  exists ch,
    open_on c ch /\ Chan.cap ch = maxCap /\ Chan.wf ch.

(** Every pointer queued in the pool's buffer is a client, not nil. *)
Definition holds_clients (c : clientPool) : Prop :=
  forall ch, clients c = Some ch -> Forall (fun p => p <> None) (Chan.buf ch).

End ClientPool.

Arguments mkWorld {F} fenv events.
Arguments fenv {F} w.
Arguments events {F} w.
Arguments ret {F A} a w.
Arguments bind {F A B} m k w.
Arguments lift {F A} o w.
Arguments emit {F} e w.
Arguments call {F} factory w.
Arguments CloseIdleConnections {F} client w.
Arguments mkPool {F} clients factory.
Arguments clients {F} c.
Arguments factory {F} c.
Arguments set_clients {F} c ch.
Arguments fill {F} n pool w.
Arguments NewClientPool {F} chanLimit initialCap maxCap factory w.
Arguments getConnsAndFactory {F} c.
Arguments Get {F} c w.
Arguments Put {F} c client w.
Arguments Len {F} c.
Arguments drain {F} queued w.
Arguments Done {F} c w.
Arguments step {F} o c w.
Arguments run {F} ops c w.
Arguments produce {F} n f s.
Arguments open_on {F} c ch.
Arguments makes_clients {F} f.
Arguments in_service {F} maxCap c.
Arguments holds_clients {F} c.

(** ** A concrete factory and concrete pools *)

(** A factory that numbers its clients: the closure holds the next number. *)
Definition counter : Factory nat := fun n => (Some n, S n).

(** A factory that returns the nil pointer. *)
Definition no_client : Factory nat := fun n => (None, n).

Definition w0 : world nat := mkWorld 0%nat [].

(** A limit that no 64-bit Go runtime exceeds for a channel of pointers:
    elements of 8 bytes, at most [2^48] bytes to allocate, a channel header
    of at most 112 bytes.  [make] panics at [2^45]. *)
Definition chanLimit64 : Z := 2 ^ 45 - 14.

(** [NewClientPool(2, 2, no_client)]: the factory returned nil twice. *)
Definition pool_nils : clientPool nat :=
  mkPool (Some (Chan.mkChan [None; None] 2 false)) no_client.

(** [NewClientPool(1, 1, no_client)], and that pool after one [Get]. *)
Definition pool_nil_head : clientPool nat :=
  mkPool (Some (Chan.mkChan [None] 1 false)) no_client.

Definition pool_nil_taken : clientPool nat :=
  mkPool (Some (Chan.mkChan [] 1 false)) no_client.

(** [NewClientPool(0, 1, counter)]. *)
Definition pool_empty : clientPool nat :=
  mkPool (Some (Chan.mkChan [] 1 false)) counter.

(** [pool_empty] after [Done]. *)
Definition pool_shut : clientPool nat :=
  mkPool (Some (Chan.mkChan [] 1 true)) counter.

(** [NewClientPool(1, 2, counter)]. *)
Definition pool_one : clientPool nat :=
  mkPool (Some (Chan.mkChan [Some 0%nat] 2 false)) counter.

(** A pool of capacity 2 holding the clients 0 and 1. *)
Definition pool_two : clientPool nat :=
  mkPool (Some (Chan.mkChan [Some 0%nat; Some 1%nat] 2 false)) counter.

(** A pool of capacity 2 whose buffer holds client 0 and then a nil pointer,
    as [NewClientPool] leaves it when the factory's second call returns nil. *)
Definition pool_nil : clientPool nat :=
  mkPool (Some (Chan.mkChan [Some 0%nat; None] 2 false)) no_client.

(** The zero value of [clientPool] with a factory: the buffer reference is
    the nil channel. *)
Definition pool_zero : clientPool nat := mkPool None counter.

(** [NewClientPool(0, 3, counter)]. *)
Definition pool_three : clientPool nat :=
  mkPool (Some (Chan.mkChan [] 3 false)) counter.

(** ** Whole lifetimes *)

(** [n] successive calls of [Get]. *)
Definition gets (n : nat) : list op := repeat OpGet n.

(** A caller's call of [Get] or [Put], or of [Done]. *)
Inductive action : Type :=
| Call (o : op)
| Shutdown.

(** The calls [acts] made one after the other on the pool; a panic or a
    parked call ends the run. *)
Fixpoint exec {F : Type} (acts : list action) (c : clientPool F)
  : M F (clientPool F) :=
  match acts with
  | [] => ret c
  | Call o :: rest => bind (step o c) (fun r => exec rest (snd r))
  | Shutdown :: rest => bind (Done c) (fun c' => exec rest c')
  end.

(** The pointer is a client, not nil. *)
Definition is_client (p : ptr) : bool :=
  match p with
  | Some _ => true
  | None => false
  end.

(** The buffer reference is a channel of capacity [maxCap] holding at most
    [maxCap] pointers, and the factory is [f]. *)
Definition built_with {F : Type} (maxCap : Z) (f : Factory F)
  (c : clientPool F) : Prop :=
  exists ch,
    clients c = Some ch /\ Chan.cap ch = maxCap /\ Chan.wf ch /\ factory c = f.

Example NewClientPool_2_5 :
  NewClientPool chanLimit64 2 5 counter w0 =
  Ok (Some (mkPool (Some (Chan.mkChan [Some 0%nat; Some 1%nat] 5 false)) counter),
      None, mkWorld 2%nat [Created (Some 0%nat); Created (Some 1%nat)]).
Proof. reflexivity. Qed.

Example scenario_2_5 :
  run [OpGet; OpGet; OpPut (Some 7%nat); OpPut (Some 8%nat); OpPut (Some 9%nat)]
      (mkPool (Some (Chan.mkChan [Some 0%nat; Some 1%nat] 5 false)) counter) w0 =
  Ok ([GetReturned (Some 0%nat); GetReturned (Some 1%nat);
       PutReturned None; PutReturned None; PutReturned None],
      mkPool (Some (Chan.mkChan [Some 7%nat; Some 8%nat; Some 9%nat] 5 false)) counter,
      w0).
Proof. reflexivity. Qed.

(** ** Properties *)

Section Properties.

Context {F : Type}.

(** The runtime's limit on the capacity of a channel. *)
Variable chanLimit : Z.

Implicit Types (c : clientPool F) (w : world F) (f : Factory F).
Implicit Types (ch : Chan.chan) (h : handle) (client : ptr).

(** *** Single steps *)

Lemma Len_open c ch :
  clients c = Some ch -> Len c = Z.of_nat (length (Chan.buf ch)).
Proof. unfold Len; simpl; intros ->; reflexivity. Qed.

Lemma Len_set_clients c ch :
  Len (set_clients c ch) = Z.of_nat (length (Chan.buf ch)).
Proof. reflexivity. Qed.

Lemma Len_nonneg c : 0 <= Len c.
Proof. unfold Len; simpl; destruct (clients c); simpl; lia. Qed.

Lemma Get_takes_head c ch client rest w :
  clients c = Some ch -> Chan.buf ch = client :: rest ->
  Get c w = Ok (client, set_clients c (Chan.set_buf ch rest), w).
Proof.
  intros Hc Hb. unfold Get, getConnsAndFactory, Chan.try_recv.
  rewrite Hc, Hb. reflexivity.
Qed.

Lemma Get_calls_factory c ch w :
  open_on c ch -> Chan.buf ch = [] ->
  Get c w =
  Ok (fst (factory c (fenv w)), c,
      mkWorld (snd (factory c (fenv w)))
              (events w ++ [Created (fst (factory c (fenv w)))])).
Proof.
  intros [Hc Ho] Hb. unfold Get, getConnsAndFactory, Chan.try_recv.
  rewrite Hc, Hb, Ho. unfold bind, call, ret.
  destruct (factory c (fenv w)); reflexivity.
Qed.

Lemma Put_enqueues c ch h w :
  open_on c ch -> Z.of_nat (length (Chan.buf ch)) < Chan.cap ch ->
  Put c (Some h) w =
  Ok (None, set_clients c (Chan.set_buf ch (Chan.buf ch ++ [Some h])), w).
Proof.
  intros [Hc Ho] Hlt. unfold Put, bind, lift, Chan.try_send, Chan.full.
  rewrite Hc, Ho.
  destruct (Z.leb_spec (Chan.cap ch) (Z.of_nat (length (Chan.buf ch)))); [lia|].
  reflexivity.
Qed.

Lemma Put_releases c ch h w :
  open_on c ch -> Chan.cap ch <= Z.of_nat (length (Chan.buf ch)) ->
  Put c (Some h) w =
  Ok (None, c, mkWorld (fenv w) (events w ++ [IdleClosed h])).
Proof.
  intros [Hc Ho] Hle. unfold Put, bind, lift, Chan.try_send, Chan.full.
  rewrite Hc, Ho.
  destruct (Z.leb_spec (Chan.cap ch) (Z.of_nat (length (Chan.buf ch)))); [|lia].
  reflexivity.
Qed.

Lemma Put_on_closed_channel c ch h w :
  clients c = Some ch -> Chan.closed ch = true ->
  Put c (Some h) w = Panic SendOnClosedChannel.
Proof.
  intros Hc Ho. unfold Put, bind, lift, Chan.try_send.
  rewrite Hc, Ho. reflexivity.
Qed.

Lemma drain_clients (hs : list handle) w :
  drain (map Some hs) w =
  Ok (tt, mkWorld (fenv w) (events w ++ map IdleClosed hs)).
Proof.
  revert w. induction hs as [|h hs IH]; intros w; simpl.
  - unfold ret. rewrite app_nil_r. destruct w; reflexivity.
  - unfold bind, emit. rewrite IH. simpl.
    rewrite <- app_assoc. reflexivity.
Qed.

(** [Done] returns only by closing an open channel, and leaves the pool on
    that channel, closed and drained. *)
Lemma Done_returns_closed c w c' w' :
  Done c w = Ok (c', w') ->
  exists ch, clients c' = Some ch /\ Chan.closed ch = true /\ Chan.buf ch = [].
Proof.
  unfold Done, bind, lift, Chan.close.
  destruct (clients c) as [ch|]; [|discriminate].
  destruct (Chan.closed ch); [discriminate|].
  destruct (drain (Chan.buf (Chan.set_closed ch)) w) as [[[] w1]| |];
    try discriminate.
  unfold ret. intros E. injection E as <- <-.
  eexists; repeat split; reflexivity.
Qed.

(** *** Sequences of calls *)

Lemma run_app (a b : list op) c w ra c1 w1 rb c2 w2 :
  run a c w = Ok (ra, c1, w1) ->
  run b c1 w1 = Ok (rb, c2, w2) ->
  run (a ++ b) c w = Ok (ra ++ rb, c2, w2).
Proof.
  revert c w ra. induction a as [|o a IH]; intros c w ra Ha Hb; simpl in *.
  - unfold ret in Ha. injection Ha as <- <- <-. exact Hb.
  - unfold bind in *.
    destruct (step o c w) as [[[r c'] w']| |]; try discriminate.
    simpl in *.
    destruct (run a c' w') as [[[ra' c1'] w1']| |] eqn:E; try discriminate.
    unfold ret in Ha. simpl in Ha. injection Ha as <- <- <-.
    rewrite (IH _ _ _ E Hb). reflexivity.
Qed.

Lemma open_on_set_buf c ch b :
  Chan.closed ch = false -> open_on (set_clients c (Chan.set_buf ch b)) (Chan.set_buf ch b).
Proof. intros H; split; [reflexivity | exact H]. Qed.

(** As long as there is room, every [Put] queues its client and nothing is
    released. *)
Lemma run_puts_fit (hs : list handle) c ch w :
  open_on c ch ->
  Z.of_nat (length (Chan.buf ch)) + Z.of_nat (length hs) <= Chan.cap ch ->
  run (puts hs) c w =
  Ok (map (fun _ => PutReturned None) hs,
      set_clients c (Chan.set_buf ch (Chan.buf ch ++ map Some hs)), w).
Proof.
  revert c ch. induction hs as [|h hs IH]; intros c ch Hopen Hroom.
  - simpl. unfold ret. rewrite app_nil_r.
    destruct Hopen as [Hc _]. destruct c as [cl fa], ch as [b k cd].
    simpl in *. subst cl. reflexivity.
  - simpl in Hroom. unfold puts. cbn [map run step]. fold (puts hs).
    unfold bind at 1. unfold bind at 1.
    rewrite (Put_enqueues c ch h w Hopen) by lia.
    destruct Hopen as [Hc Ho].
    unfold ret at 1. cbn [fst snd]. unfold bind at 1.
    rewrite (IH _ _ (open_on_set_buf c ch _ Ho)).
    + unfold ret. simpl. unfold set_clients, Chan.set_buf. simpl.
      rewrite <- app_assoc. reflexivity.
    + simpl. rewrite length_app. simpl. lia.
Qed.

Lemma run_one (o : op) c w r c' w' :
  step o c w = Ok (r, c', w') -> run [o] c w = Ok ([r], c', w').
Proof. intros H. simpl. unfold bind. rewrite H. reflexivity. Qed.

(** *** Construction *)

Lemma produce_length n f (s : F) : length (fst (produce n f s)) = n.
Proof.
  revert s. induction n as [|n IH]; intros s; simpl; [reflexivity|].
  destruct (f s) as [p s1]. specialize (IH s1).
  destruct (produce n f s1) as [ps s2]. simpl in *. congruence.
Qed.

(** The filling loop, started with room for [n] more clients, queues what
    [n] calls of the factory return. *)
Lemma fill_open (n : nat) c ch w :
  open_on c ch ->
  Z.of_nat (length (Chan.buf ch)) + Z.of_nat n <= Chan.cap ch ->
  fill n c w =
  Ok (set_clients c
        (Chan.set_buf ch (Chan.buf ch ++ fst (produce n (factory c) (fenv w)))),
      mkWorld (snd (produce n (factory c) (fenv w)))
              (events w ++ map Created (fst (produce n (factory c) (fenv w))))).
Proof.
  revert c ch w. induction n as [|n IH]; intros c ch w Hopen Hroom.
  - simpl. unfold ret. rewrite !app_nil_r.
    destruct Hopen as [Hc _]. destruct c as [cl fa], ch as [b k cd], w as [s ev].
    simpl in *. subst cl. reflexivity.
  - destruct Hopen as [Hc Ho].
    cbn [fill produce]. unfold bind at 1. unfold call.
    destruct (factory c (fenv w)) as [p s1] eqn:Ef.
    unfold bind at 1. unfold lift, Chan.send, Chan.full. rewrite Hc, Ho.
    destruct (Z.leb_spec (Chan.cap ch) (Z.of_nat (length (Chan.buf ch)))); [lia|].
    rewrite (IH _ _ _ (open_on_set_buf c ch _ Ho)).
    + cbn [factory set_clients fenv events Chan.buf Chan.set_buf Chan.cap Chan.closed].
      destruct (produce n (factory c) s1) as [ps s2]. simpl.
      rewrite <- !app_assoc. reflexivity.
    + simpl. rewrite length_app. simpl. lia.
Qed.

Lemma NewClientPool_guard (initialCap maxCap : Z) :
  (initialCap <? 0) || (maxCap <=? 0) || (initialCap >? maxCap) = true <->
  (initialCap < 0 \/ maxCap < 1 \/ maxCap < initialCap).
Proof.
  rewrite !orb_true_iff, Z.ltb_lt, Z.leb_le, Z.gtb_gt. lia.
Qed.

Lemma NewClientPool_valid initialCap maxCap f w :
  0 <= initialCap <= maxCap -> 1 <= maxCap -> maxCap <= chanLimit ->
  NewClientPool chanLimit initialCap maxCap f w =
  Ok (Some (mkPool (Some (Chan.mkChan
                            (fst (produce (Z.to_nat initialCap) f (fenv w)))
                            maxCap false)) f),
      None,
      mkWorld (snd (produce (Z.to_nat initialCap) f (fenv w)))
              (events w ++
               map Created (fst (produce (Z.to_nat initialCap) f (fenv w))))).
Proof.
  intros Hi Hm Hl. unfold NewClientPool.
  destruct ((initialCap <? 0) || (maxCap <=? 0) || (initialCap >? maxCap)) eqn:G.
  - apply NewClientPool_guard in G. lia.
  - unfold bind at 1. unfold lift, Chan.make.
    destruct (Z.ltb_spec maxCap 0); [lia|].
    destruct (Z.ltb_spec chanLimit maxCap); [lia|].
    cbn [orb]. unfold bind.
    rewrite (fill_open _ _ (Chan.mkChan [] maxCap false)).
    + reflexivity.
    + split; reflexivity.
    + simpl. lia.
Qed.

(** Beyond the runtime's limit [make] panics before any client is created. *)
Lemma NewClientPool_beyond_limit initialCap maxCap f w :
  0 <= initialCap <= maxCap -> 1 <= maxCap -> chanLimit < maxCap ->
  NewClientPool chanLimit initialCap maxCap f w = Panic MakechanSizeOutOfRange.
Proof.
  intros Hi Hm Hl. unfold NewClientPool.
  destruct ((initialCap <? 0) || (maxCap <=? 0) || (initialCap >? maxCap)) eqn:G.
  - apply NewClientPool_guard in G. lia.
  - unfold bind at 1. unfold lift, Chan.make.
    destruct (Z.ltb_spec maxCap 0); [lia|].
    destruct (Z.ltb_spec chanLimit maxCap); [|lia].
    reflexivity.
Qed.

(** [NewClientPool] returns a pool only for valid capacities within the
    runtime's limit. *)
Lemma NewClientPool_returns initialCap maxCap f w c w1 :
  NewClientPool chanLimit initialCap maxCap f w = Ok (Some c, None, w1) ->
  0 <= initialCap <= maxCap /\ 1 <= maxCap /\ maxCap <= chanLimit.
Proof.
  intros H.
  destruct ((initialCap <? 0) || (maxCap <=? 0) || (initialCap >? maxCap)) eqn:G.
  - unfold NewClientPool in H. rewrite G in H. discriminate.
  - assert (Hok : ~ (initialCap < 0 \/ maxCap < 1 \/ maxCap < initialCap)).
    { intros Hbad. apply NewClientPool_guard in Hbad. congruence. }
    destruct (Z.le_gt_cases maxCap chanLimit) as [Hl|Hl]; [lia|].
    rewrite NewClientPool_beyond_limit in H by lia. discriminate.
Qed.

(** *** The pool in service *)

Lemma NewClientPool_in_service initialCap maxCap f w c w1 :
  NewClientPool chanLimit initialCap maxCap f w = Ok (Some c, None, w1) ->
  in_service maxCap c.
Proof.
  intros H.
  destruct (NewClientPool_returns _ _ _ _ _ _ H) as (Hi & Hm & Hl).
  rewrite (NewClientPool_valid _ _ f w Hi Hm Hl) in H.
  injection H as <- _.
  eexists. split; [split; reflexivity|]. split; [reflexivity|].
  unfold Chan.wf. simpl. rewrite produce_length. lia.
Qed.

Lemma step_in_service maxCap (o : op) c w :
  in_service maxCap c ->
  exists r c' w', step o c w = Ok (r, c', w') /\ in_service maxCap c'.
Proof.
  intros (ch & Hopen & Hcap & Hwf). unfold Chan.wf in Hwf.
  destruct o as [|[h|]]; cbn [step]; unfold bind.
  - destruct (Chan.buf ch) as [|client rest] eqn:Hb.
    + rewrite (Get_calls_factory c ch w Hopen Hb). unfold ret.
      do 3 eexists. split; [reflexivity|].
      exists ch. unfold Chan.wf. rewrite Hb. auto.
    + destruct Hopen as [Hc Ho].
      rewrite (Get_takes_head c ch client rest w Hc Hb). unfold ret.
      do 3 eexists. split; [reflexivity|].
      eexists. split; [apply (open_on_set_buf c ch rest Ho)|].
      split; [exact Hcap|]. unfold Chan.wf. simpl in *. lia.
  - destruct (Z.lt_ge_cases (Z.of_nat (length (Chan.buf ch))) (Chan.cap ch))
      as [Hlt|Hge].
    + rewrite (Put_enqueues c ch h w Hopen Hlt). unfold ret.
      destruct Hopen as [Hc Ho].
      do 3 eexists. split; [reflexivity|].
      eexists. split; [apply (open_on_set_buf c ch _ Ho)|].
      split; [exact Hcap|]. unfold Chan.wf. simpl.
      rewrite length_app. simpl. lia.
    + rewrite (Put_releases c ch h w Hopen Hge). unfold ret.
      do 3 eexists. split; [reflexivity|].
      exists ch. auto.
  - unfold Put, ret.
    do 3 eexists. split; [reflexivity|].
    exists ch. auto.
Qed.

Lemma run_in_service maxCap (ops : list op) c w :
  in_service maxCap c ->
  exists replies c' w',
    run ops c w = Ok (replies, c', w') /\ in_service maxCap c'.
Proof.
  revert c w. induction ops as [|o ops IH]; intros c w Hin.
  - exists [], c, w. split; [reflexivity | exact Hin].
  - destruct (step_in_service maxCap o c w Hin) as (r & c1 & w1 & Hs & Hin1).
    destruct (IH c1 w1 Hin1) as (rs & c2 & w2 & Hr & Hin2).
    exists (r :: rs), c2, w2. split; [|exact Hin2].
    cbn [run]. unfold bind. rewrite Hs. cbn [fst snd]. rewrite Hr.
    reflexivity.
Qed.

Lemma in_service_Len maxCap c : in_service maxCap c -> 0 <= Len c <= maxCap.
Proof.
  intros (ch & [Hc _] & Hcap & Hwf). unfold Chan.wf in Hwf.
  rewrite (Len_open c ch Hc). lia.
Qed.

Lemma Put_after_Done_panics c w c' w' h w2 :
  Done c w = Ok (c', w') -> Put c' (Some h) w2 = Panic SendOnClosedChannel.
Proof.
  intros H. destruct (Done_returns_closed c w c' w' H) as (ch & Hc & Hcl & _).
  exact (Put_on_closed_channel c' ch h w2 Hc Hcl).
Qed.

(** *** Nil pointers stay out of the buffer *)

Lemma produce_clients n f (s : F) :
  makes_clients f -> Forall (fun p => p <> None) (fst (produce n f s)).
Proof.
  intros Hf. revert s. induction n as [|n IH]; intros s; simpl.
  - constructor.
  - pose proof (Hf s) as Hp. destruct (f s) as [p s1]. specialize (IH s1).
    destruct (produce n f s1) as [ps s2]. simpl in *.
    constructor; assumption.
Qed.

Lemma NewClientPool_holds_clients initialCap maxCap f w c w1 :
  makes_clients f ->
  NewClientPool chanLimit initialCap maxCap f w = Ok (Some c, None, w1) ->
  holds_clients c /\ factory c = f.
Proof.
  intros Hf H.
  destruct (NewClientPool_returns _ _ _ _ _ _ H) as (Hi & Hm & Hl).
  rewrite (NewClientPool_valid initialCap maxCap f w Hi Hm Hl) in H.
  injection H as <- _. split; [|reflexivity].
  intros ch Hch. injection Hch as <-. simpl.
  apply produce_clients. exact Hf.
Qed.

Lemma step_holds_clients (o : op) c w r c' w' :
  makes_clients (factory c) -> holds_clients c ->
  step o c w = Ok (r, c', w') ->
  holds_clients c' /\ factory c' = factory c.
Proof.
  intros Hf Hc Hs. destruct o as [|[h|]]; cbn [step] in Hs; unfold bind in Hs.
  - unfold Get, getConnsAndFactory, Chan.try_recv in Hs.
    destruct (clients c) as [ch|] eqn:Ecl.
    + specialize (Hc ch Ecl).
      destruct (Chan.buf ch) as [|client rest] eqn:Hb.
      * destruct (Chan.closed ch).
        -- unfold ret in Hs. simpl in Hs. injection Hs as _ <- _.
           split; [|reflexivity].
           intros ch' E. injection E as <-. rewrite Hb. constructor.
        -- unfold bind, call, ret in Hs.
           destruct (factory c (fenv w)). simpl in Hs. injection Hs as _ <- _.
           split; [|reflexivity].
           intros ch' E. rewrite Ecl in E. injection E as <-.
           rewrite Hb. constructor.
      * unfold ret in Hs. simpl in Hs. injection Hs as _ <- _.
        split; [|reflexivity].
        intros ch' E. injection E as <-. simpl.
        inversion Hc; assumption.
    + unfold bind, call, ret in Hs.
      destruct (factory c (fenv w)). simpl in Hs. injection Hs as _ <- _.
      split; [|reflexivity]. intros ch' E. congruence.
  - unfold Put, bind, lift, Chan.try_send in Hs.
    destruct (clients c) as [ch|] eqn:Ecl.
    + specialize (Hc ch Ecl).
      destruct (Chan.closed ch); [discriminate|].
      destruct (Chan.full ch).
      * unfold CloseIdleConnections, emit, ret in Hs. simpl in Hs.
        injection Hs as _ <- _. split; [|reflexivity].
        intros ch' E. rewrite Ecl in E. injection E as <-. exact Hc.
      * unfold ret in Hs. simpl in Hs. injection Hs as _ <- _.
        split; [|reflexivity].
        intros ch' E. injection E as <-. simpl.
        apply Forall_app. split; [exact Hc|].
        constructor; [discriminate | constructor].
    + unfold CloseIdleConnections, emit, ret in Hs. simpl in Hs.
      injection Hs as _ <- _. split; [|reflexivity].
      intros ch' E. congruence.
  - unfold Put, ret in Hs. simpl in Hs.
    assert (c' = c) by congruence. subst c'. split; [exact Hc | reflexivity].
Qed.

(** With a factory that never returns nil, the buffer of a pool built by
    [NewClientPool] holds only clients after any [Get] and [Put] calls. *)
Lemma run_holds_clients (ops : list op) c w rs c' w' :
  makes_clients (factory c) -> holds_clients c ->
  run ops c w = Ok (rs, c', w') ->
  holds_clients c' /\ factory c' = factory c.
Proof.
  revert c w rs. induction ops as [|o ops IH]; intros c w rs Hf Hc Hr.
  - simpl in Hr. unfold ret in Hr.
    assert (c' = c) by congruence. subst c'. split; [exact Hc | reflexivity].
  - cbn [run] in Hr. unfold bind in Hr.
    destruct (step o c w) as [[[r c1] w1]| |] eqn:Hs; try discriminate.
    cbn [fst snd] in Hr.
    destruct (run ops c1 w1) as [[[rs1 c2] w2]| |] eqn:Hr1; try discriminate.
    unfold ret in Hr. cbn [fst snd] in Hr.
    assert (c' = c2) by congruence. assert (w' = w2) by congruence.
    subst c' w'.
    destruct (step_holds_clients o c w r c1 w1 Hf Hc Hs) as [Hc1 Hf1].
    rewrite <- Hf1 in Hf.
    destruct (IH c1 w1 rs1 Hf Hc1 Hr1) as [Hc2 Hf2].
    split; [exact Hc2 | congruence].
Qed.

(** *** The claims *)

(** C1, amended: on every open pool (buffer reference set, buffer not
    closed) [Get] does a non-blocking dequeue.  With a non-empty buffer it
    returns the client at the head of the buffer and leaves the world as it
    was: the factory is not called.  With an empty buffer it calls the
    factory exactly once and returns what that call returned, leaving the
    buffer as it was.  In both cases [Get] returns ([Ok]: no panic, no
    parking), and what it returns is a non-nil client whenever the buffer
    holds no nil pointer and the factory never returns one. *)
Theorem Get_on_open_pool c ch w :
  open_on c ch ->
  match Chan.buf ch with
  | client :: rest =>
      Get c w = Ok (client, set_clients c (Chan.set_buf ch rest), w)
  | [] =>
      Get c w =
      Ok (fst (factory c (fenv w)), c,
          mkWorld (snd (factory c (fenv w)))
                  (events w ++ [Created (fst (factory c (fenv w)))]))
  end
  /\ (makes_clients (factory c) ->
      Forall (fun p => p <> None) (Chan.buf ch) ->
      exists h c' w', Get c w = Ok (Some h, c', w')).
Proof.
  intros Hopen. split.
  - destruct (Chan.buf ch) as [|client rest] eqn:Hb.
    + exact (Get_calls_factory c ch w Hopen Hb).
    + destruct Hopen as [Hc _]. exact (Get_takes_head c ch client rest w Hc Hb).
  - intros Hf Hall.
    destruct (Chan.buf ch) as [|client rest] eqn:Hb.
    + rewrite (Get_calls_factory c ch w Hopen Hb).
      specialize (Hf (fenv w)).
      destruct (fst (factory c (fenv w))) as [h|]; [|congruence].
      do 3 eexists. reflexivity.
    + destruct Hopen as [Hc _].
      rewrite (Get_takes_head c ch client rest w Hc Hb).
      inversion Hall as [|? ? Hhead _]; subst.
      destruct client as [h|]; [|congruence].
      do 3 eexists. reflexivity.
Qed.

(** C2: on an open pool whose buffer is full, [Put] of a non-nil client
    calls [CloseIdleConnections] on that client, leaves the pool as it was
    (the client is not queued) and returns the nil error.  In particular,
    [maxCap + 1] successive [Put]s of non-nil clients on an open pool of
    capacity [maxCap] with an empty buffer all return the nil error, leave
    [Len() = maxCap] with the first [maxCap] clients queued, and release
    the last client and no other. *)
Theorem Put_on_full_pool :
  (forall c ch h w,
      open_on c ch -> Len c = Chan.cap ch ->
      Put c (Some h) w =
      Ok (None, c, mkWorld (fenv w) (events w ++ [IdleClosed h])))
  /\
  (forall maxCap c ch (hs : list handle) (extra : handle) w,
      open_on c ch -> Chan.buf ch = [] -> Chan.cap ch = maxCap ->
      Z.of_nat (length hs) = maxCap ->
      exists c',
        run (puts (hs ++ [extra])) c w =
        Ok (map (fun _ => PutReturned None) (hs ++ [extra]), c',
            mkWorld (fenv w) (events w ++ [IdleClosed extra]))
        /\ clients c' = Some (Chan.set_buf ch (map Some hs))
        /\ Len c' = maxCap).
Proof.
  split.
  - intros c ch h w Hopen Hfull.
    apply (Put_releases c ch h w Hopen).
    destruct Hopen as [Hc _]. rewrite (Len_open c ch Hc) in Hfull. lia.
  - intros maxCap c ch hs extra w Hopen Hb Hcap Hlen.
    exists (set_clients c (Chan.set_buf ch (map Some hs))).
    split; [|split].
    + unfold puts. rewrite !map_app. fold (puts hs). fold (puts [extra]).
      eapply run_app.
      * rewrite (run_puts_fit hs c ch w Hopen) by (rewrite Hb; simpl; lia).
        rewrite Hb. cbn [app]. reflexivity.
      * apply run_one. cbn [step]. unfold bind.
        destruct Hopen as [_ Ho].
        rewrite (Put_releases _ _ extra w
                   (open_on_set_buf c ch (map Some hs) Ho)).
        -- reflexivity.
        -- simpl. rewrite length_map. lia.
    + reflexivity.
    + rewrite Len_set_clients. simpl. rewrite length_map. exact Hlen.
Qed.

(** C3: on a pool built by [NewClientPool] with capacity [maxCap], every
    finite sequence of [Get] and [Put] calls runs to its end, and [Len()]
    after it is at least 0 and at most [maxCap]. *)
Theorem Len_within_capacity initialCap maxCap f w c w1 :
  NewClientPool chanLimit initialCap maxCap f w = Ok (Some c, None, w1) ->
  forall (ops : list op) w2,
  exists replies c' w',
    run ops c w2 = Ok (replies, c', w') /\ 0 <= Len c' <= maxCap.
Proof.
  intros Hnew ops w2.
  pose proof (NewClientPool_in_service _ _ _ _ _ _ Hnew) as Hin.
  destruct (run_in_service maxCap ops c w2 Hin) as (rs & c' & w' & Hr & Hin').
  exists rs, c', w'. split; [exact Hr | exact (in_service_Len maxCap c' Hin')].
Qed.

(** C5, amended: for all [initialCap] and [maxCap] with
    [0 <= initialCap <= maxCap], [1 <= maxCap] and [maxCap] within the
    capacity the runtime can allocate for a channel, [NewClientPool] returns
    a pool and the nil error, has called the factory exactly [initialCap]
    times, has queued what those calls returned in the order of the calls,
    and [Len()] of the pool is [initialCap]. *)
Theorem NewClientPool_fills initialCap maxCap f w :
  0 <= initialCap <= maxCap -> 1 <= maxCap -> maxCap <= chanLimit ->
  let made := produce (Z.to_nat initialCap) f (fenv w) in
  let pool := mkPool (Some (Chan.mkChan (fst made) maxCap false)) f in
  NewClientPool chanLimit initialCap maxCap f w =
  Ok (Some pool, None,
      mkWorld (snd made) (events w ++ map Created (fst made)))
  /\ Z.of_nat (length (fst made)) = initialCap
  /\ Len pool = initialCap.
Proof.
  intros Hi Hm Hl made pool. subst made pool.
  split; [exact (NewClientPool_valid initialCap maxCap f w Hi Hm Hl)|].
  unfold Len. simpl. rewrite produce_length. lia.
Qed.

(** C6: [NewClientPool] returns the invalid-capacity error exactly when one
    of [initialCap >= 0], [maxCap >= 1], [initialCap <= maxCap] fails; it
    then returns no pool and has not called the factory (the world is as it
    was); and it returns no other error. *)
Theorem NewClientPool_invalid_capacity initialCap maxCap f w :
  (NewClientPool chanLimit initialCap maxCap f w =
   Ok (None, Some ErrInvalidCapacity, w)
   <-> (initialCap < 0 \/ maxCap < 1 \/ maxCap < initialCap))
  /\ (forall pool err w',
         NewClientPool chanLimit initialCap maxCap f w =
         Ok (pool, Some err, w') ->
         err = ErrInvalidCapacity /\ pool = None /\ w' = w).
Proof.
  pose proof (NewClientPool_guard initialCap maxCap) as Hg.
  destruct ((initialCap <? 0) || (maxCap <=? 0) || (initialCap >? maxCap)) eqn:G.
  - assert (Hbad : initialCap < 0 \/ maxCap < 1 \/ maxCap < initialCap)
      by (apply Hg; reflexivity).
    unfold NewClientPool. rewrite G. unfold ret. split.
    + split; [intros _; exact Hbad | reflexivity].
    + intros pool err w' E. repeat split; congruence.
  - assert (Hok : ~ (initialCap < 0 \/ maxCap < 1 \/ maxCap < initialCap))
      by (intros Hbad; apply Hg in Hbad; discriminate).
    destruct (Z.le_gt_cases maxCap chanLimit) as [Hl|Hl].
    + rewrite (NewClientPool_valid initialCap maxCap f w) by lia. split.
      * split; [discriminate | lia].
      * intros pool err w' E. discriminate.
    + rewrite (NewClientPool_beyond_limit initialCap maxCap f w) by lia. split.
      * split; [discriminate | lia].
      * intros pool err w' E. discriminate.
Qed.

(** C7: on every pool state, open or shut down, [Put] of the nil pointer
    returns the nil-client error and leaves the pool and the world as they
    were: [Len()] is unchanged, nothing is queued, nothing is released. *)
Theorem Put_nil_rejected c w :
  Put c None w = Ok (Some ErrNilClient, c, w)
  /\ (forall r c' w', Put c None w = Ok (r, c', w') ->
      Len c' = Len c /\ clients c' = clients c /\ events w' = events w).
Proof.
  split; [reflexivity|].
  unfold Put, ret. intros r c' w' E. repeat split; congruence.
Qed.

(** C8, amended: [Done] on an open pool whose buffer holds only non-nil
    clients, [hs], marks the buffer closed, calls [CloseIdleConnections] on
    each of [hs] in queue order and on nothing else, and returns with the
    buffer empty. *)
Theorem Done_on_open_pool c ch (hs : list handle) w :
  open_on c ch -> Chan.buf ch = map Some hs ->
  Done c w =
  Ok (set_clients c (Chan.mkChan [] (Chan.cap ch) true),
      mkWorld (fenv w) (events w ++ map IdleClosed hs)).
Proof.
  intros [Hc Ho] Hb. unfold Done, bind, lift, Chan.close.
  rewrite Hc, Ho. cbn [Chan.buf Chan.set_closed]. rewrite Hb.
  rewrite drain_clients. reflexivity.
Qed.

(** C9: on every pool on which [Done] has returned once, a second [Done]
    closes the already closed buffer and panics. *)
Theorem Done_twice_panics c w c' w' :
  Done c w = Ok (c', w') ->
  forall w2, Done c' w2 = Panic CloseOfClosedChannel.
Proof.
  intros H w2.
  destruct (Done_returns_closed c w c' w' H) as (ch & Hc & Hcl & _).
  unfold Done, bind, lift, Chan.close. rewrite Hc, Hcl. reflexivity.
Qed.

(** C10, amended: on an open pool whose buffer is non-empty and has a
    non-nil client at its head, [Get] followed by [Put] of the client [Get]
    returned leaves [Len()] as it was. *)
Theorem Get_then_Put c ch h rest w :
  open_on c ch -> Chan.wf ch -> Chan.buf ch = Some h :: rest ->
  exists c1 c2,
    Get c w = Ok (Some h, c1, w)
    /\ Put c1 (Some h) w = Ok (None, c2, w)
    /\ Len c2 = Len c.
Proof.
  intros [Hc Ho] Hwf Hb. unfold Chan.wf in Hwf. rewrite Hb in Hwf.
  simpl length in Hwf.
  exists (set_clients c (Chan.set_buf ch rest)).
  exists (set_clients c (Chan.set_buf ch (rest ++ [Some h]))).
  split; [exact (Get_takes_head c ch (Some h) rest w Hc Hb)|].
  split.
  - rewrite (Put_enqueues _ _ h w (open_on_set_buf c ch rest Ho)).
    + reflexivity.
    + simpl. lia.
  - rewrite Len_set_clients, (Len_open c ch Hc), Hb. cbn [Chan.buf Chan.set_buf].
    rewrite length_app. cbn [length]. rewrite Nat.add_1_r. reflexivity.
Qed.

End Properties.

(** ** The claims on concrete pools *)

Lemma Get_on_open_pool_witness :
  open_on pool_two (Chan.mkChan [Some 0%nat; Some 1%nat] 2 false)
  /\ Get pool_two w0 =
     Ok (Some 0%nat, mkPool (Some (Chan.mkChan [Some 1%nat] 2 false)) counter, w0).
Proof.
  assert (H : open_on pool_two (Chan.mkChan [Some 0%nat; Some 1%nat] 2 false))
    by (split; reflexivity).
  split; [exact H | exact (proj1 (Get_on_open_pool pool_two _ w0 H))].
Defined.

(** C1 as stated fails on a pool that has been shut down: the buffer of
    [pool_shut], which [Done] leaves behind, is empty, yet [Get] returns the
    nil pointer and does not call the factory, where a call of the factory
    would have returned client 0. *)
Lemma Get_on_shut_pool :
  NewClientPool chanLimit64 0 1 counter w0 = Ok (Some pool_empty, None, w0)
  /\ Done pool_empty w0 = Ok (pool_shut, w0)
  /\ Len pool_shut = 0
  /\ Get pool_shut w0 = Ok (None, pool_shut, w0)
  /\ Get pool_shut w0 <>
     Ok (fst (factory pool_shut (fenv w0)), pool_shut,
         mkWorld (snd (factory pool_shut (fenv w0)))
                 (events w0 ++ [Created (fst (factory pool_shut (fenv w0)))])).
Proof.
  repeat split; try reflexivity. vm_compute. discriminate.
Defined.

Lemma Put_on_full_pool_witness :
  Put pool_two (Some 7%nat) w0 =
  Ok (None, pool_two, mkWorld 0%nat [IdleClosed 7%nat])
  /\ exists c',
       run (puts ([5%nat] ++ [6%nat])) pool_empty w0 =
       Ok ([PutReturned None; PutReturned None], c',
           mkWorld 0%nat [IdleClosed 6%nat])
       /\ clients c' = Some (Chan.mkChan [Some 5%nat] 1 false)
       /\ Len c' = 1.
Proof.
  split.
  - apply (proj1 Put_on_full_pool pool_two
             (Chan.mkChan [Some 0%nat; Some 1%nat] 2 false) 7%nat w0).
    + split; reflexivity.
    + reflexivity.
  - apply (proj2 Put_on_full_pool 1 pool_empty (Chan.mkChan [] 1 false)
             [5%nat] 6%nat w0).
    + split; reflexivity.
    + reflexivity.
    + reflexivity.
    + reflexivity.
Defined.

Lemma Len_within_capacity_witness :
  NewClientPool chanLimit64 1 2 counter w0 =
  Ok (Some pool_one, None, mkWorld 1%nat [Created (Some 0%nat)])
  /\ forall (ops : list op) (w2 : world nat),
     exists replies c' w',
       run ops pool_one w2 = Ok (replies, c', w') /\ 0 <= Len c' <= 2.
Proof.
  split; [reflexivity|].
  exact (Len_within_capacity chanLimit64 1 2 counter w0 pool_one
           (mkWorld 1%nat [Created (Some 0%nat)]) eq_refl).
Defined.

(** C4 fails on the code: after [NewClientPool(0, 1, counter)] and [Done],
    [Put] of the non-nil client 7 panics with a send on a closed channel. *)
Theorem Put_after_Done :
  NewClientPool chanLimit64 0 1 counter w0 = Ok (Some pool_empty, None, w0)
  /\ Done pool_empty w0 = Ok (pool_shut, w0)
  /\ Put pool_shut (Some 7%nat) w0 = Panic SendOnClosedChannel.
Proof. repeat split. Qed.

Lemma NewClientPool_fills_witness :
  0 <= 2 <= 5 /\ 1 <= 5 /\ 5 <= chanLimit64
  /\ NewClientPool chanLimit64 2 5 counter w0 =
     Ok (Some (mkPool (Some (Chan.mkChan [Some 0%nat; Some 1%nat] 5 false))
                      counter),
         None, mkWorld 2%nat [Created (Some 0%nat); Created (Some 1%nat)])
  /\ Z.of_nat (length [Some 0%nat; Some 1%nat]) = 2
  /\ Len (mkPool (Some (Chan.mkChan [Some 0%nat; Some 1%nat] 5 false)) counter)
     = 2.
Proof.
  assert (Hi : 0 <= 2 <= 5) by lia.
  assert (Hm : 1 <= 5) by lia.
  assert (Hl : 5 <= chanLimit64) by (vm_compute; discriminate).
  split; [exact Hi|]. split; [exact Hm|]. split; [exact Hl|].
  exact (NewClientPool_fills chanLimit64 2 5 counter w0 Hi Hm Hl).
Defined.

(** C5 as stated fails at [initialCap = 0], [maxCap = 0]: the bounds
    [0 <= initialCap <= maxCap] hold and [NewClientPool] returns the
    invalid-capacity error and no pool.  It also fails at [initialCap = 0],
    [maxCap = 2^45], beyond what a 64-bit runtime can allocate: [make]
    panics and [NewClientPool] does not return. *)
Lemma NewClientPool_0_0 :
  (0 <= 0 <= 0
   /\ NewClientPool chanLimit64 0 0 counter w0 =
      Ok (None, Some ErrInvalidCapacity, w0))
  /\ (0 <= 0 <= 2 ^ 45
      /\ NewClientPool chanLimit64 0 (2 ^ 45) counter w0 =
         Panic MakechanSizeOutOfRange).
Proof.
  split; (split; [lia | reflexivity]).
Defined.

Lemma Done_on_open_pool_witness :
  open_on pool_two (Chan.mkChan [Some 0%nat; Some 1%nat] 2 false)
  /\ Done pool_two w0 =
     Ok (mkPool (Some (Chan.mkChan [] 2 true)) counter,
         mkWorld 0%nat [IdleClosed 0%nat; IdleClosed 1%nat]).
Proof.
  assert (H : open_on pool_two (Chan.mkChan [Some 0%nat; Some 1%nat] 2 false))
    by (split; reflexivity).
  split; [exact H|].
  exact (Done_on_open_pool pool_two _ [0%nat; 1%nat] w0 H eq_refl).
Defined.

(** C8 as stated fails on an open pool whose buffer holds a nil pointer:
    [NewClientPool(2, 2, no_client)] queues the two nil pointers its factory
    returns, the pool is open, and [Done] panics with a nil dereference
    instead of returning with the buffer drained. *)
Lemma Done_on_pool_of_nils :
  NewClientPool chanLimit64 2 2 no_client w0 =
  Ok (Some pool_nils, None, mkWorld 0%nat [Created None; Created None])
  /\ open_on pool_nils (Chan.mkChan [None; None] 2 false)
  /\ Done pool_nils (mkWorld 0%nat [Created None; Created None]) =
     Panic NilPointerDereference
  /\ forall c' w', Done pool_nils (mkWorld 0%nat [Created None; Created None])
                   <> Ok (c', w').
Proof.
  split; [reflexivity|]. split; [split; reflexivity|].
  split; [reflexivity|]. intros c' w'. vm_compute. discriminate.
Defined.

Lemma Done_twice_panics_witness :
  Done pool_empty w0 = Ok (pool_shut, w0)
  /\ Done pool_shut w0 = Panic CloseOfClosedChannel.
Proof.
  split; [reflexivity|].
  exact (Done_twice_panics pool_empty w0 pool_shut w0 eq_refl w0).
Defined.

Lemma Get_then_Put_witness :
  open_on pool_two (Chan.mkChan [Some 0%nat; Some 1%nat] 2 false)
  /\ Chan.wf (Chan.mkChan [Some 0%nat; Some 1%nat] 2 false)
  /\ exists c1 c2,
       Get pool_two w0 = Ok (Some 0%nat, c1, w0)
       /\ Put c1 (Some 0%nat) w0 = Ok (None, c2, w0)
       /\ Len c2 = Len pool_two.
Proof.
  assert (H : open_on pool_two (Chan.mkChan [Some 0%nat; Some 1%nat] 2 false))
    by (split; reflexivity).
  assert (Hwf : Chan.wf (Chan.mkChan [Some 0%nat; Some 1%nat] 2 false))
    by (unfold Chan.wf; simpl; lia).
  split; [exact H|]. split; [exact Hwf|].
  exact (Get_then_Put pool_two _ 0%nat [Some 1%nat] w0 H Hwf eq_refl).
Defined.

(** C10 as stated fails on an open pool whose non-empty buffer has a nil
    pointer at its head: on [NewClientPool(1, 1, no_client)], [Len()] is 1,
    [Get] returns the nil pointer, [Put] of what [Get] returned is rejected
    with the nil-client error, and [Len()] is 0 afterwards. *)
Lemma Get_then_Put_nil_head :
  NewClientPool chanLimit64 1 1 no_client w0 =
  Ok (Some pool_nil_head, None, mkWorld 0%nat [Created None])
  /\ open_on pool_nil_head (Chan.mkChan [None] 1 false)
  /\ Len pool_nil_head = 1
  /\ Get pool_nil_head (mkWorld 0%nat [Created None]) =
     Ok (None, pool_nil_taken, mkWorld 0%nat [Created None])
  /\ Put pool_nil_taken None (mkWorld 0%nat [Created None]) =
     Ok (Some ErrNilClient, pool_nil_taken, mkWorld 0%nat [Created None])
  /\ Len pool_nil_taken = 0
  /\ Len pool_nil_taken <> Len pool_nil_head.
Proof.
  split; [reflexivity|]. split; [split; reflexivity|].
  repeat (split; [reflexivity|]). vm_compute. discriminate.
Defined.

(** ** Further properties of the pool *)

Section Lifetimes.

Context {F : Type}.

(** The runtime's limit on the capacity of a channel. *)
Variable chanLimit : Z.

Implicit Types (c : clientPool F) (w : world F) (f : Factory F).
Implicit Types (ch : Chan.chan) (h : handle) (client : ptr).

Lemma set_clients_same c ch : clients c = Some ch -> set_clients c ch = c.
Proof. destruct c as [cl fa]. simpl. intros ->. reflexivity. Qed.

Lemma set_buf_same ch : Chan.set_buf ch (Chan.buf ch) = ch.
Proof. destruct ch; reflexivity. Qed.

Lemma world_same w : mkWorld (fenv w) (events w ++ []) = w.
Proof. destruct w. simpl. rewrite app_nil_r. reflexivity. Qed.

Lemma run_cons (o : op) (ops : list op) c w r c1 w1 rs c2 w2 :
  step o c w = Ok (r, c1, w1) ->
  run ops c1 w1 = Ok (rs, c2, w2) ->
  run (o :: ops) c w = Ok (r :: rs, c2, w2).
Proof.
  intros Hs Hr. cbn [run]. unfold bind. rewrite Hs. cbn [fst snd].
  rewrite Hr. reflexivity.
Qed.

Lemma step_Get c w p c' w' :
  Get c w = Ok (p, c', w') -> step OpGet c w = Ok (GetReturned p, c', w').
Proof. intros H. cbn [step]. unfold bind. rewrite H. reflexivity. Qed.

Lemma step_Put c client w e c' w' :
  Put c client w = Ok (e, c', w') ->
  step (OpPut client) c w = Ok (PutReturned e, c', w').
Proof. intros H. cbn [step]. unfold bind. rewrite H. reflexivity. Qed.

(** [Get]s that find the buffer stocked take its pointers from the head. *)
Lemma run_gets_stocked (ps rest : list ptr) c ch w :
  clients c = Some ch -> Chan.buf ch = ps ++ rest ->
  run (gets (length ps)) c w =
  Ok (map GetReturned ps, set_clients c (Chan.set_buf ch rest), w).
Proof.
  revert c ch. induction ps as [|p ps IH]; intros c ch Hc Hb.
  - simpl in *. unfold ret. rewrite <- Hb, set_buf_same.
    rewrite (set_clients_same c ch Hc). reflexivity.
  - simpl in Hb. cbn [length gets repeat]. fold (gets (length ps)).
    eapply run_cons.
    + apply step_Get. exact (Get_takes_head c ch p (ps ++ rest) w Hc Hb).
    + rewrite (IH (set_clients c (Chan.set_buf ch (ps ++ rest)))
                  (Chan.set_buf ch (ps ++ rest)) eq_refl eq_refl).
      reflexivity.
Qed.



(** [Put]s on an open pool whose buffer is full each release their client. *)
Lemma run_puts_full (hs : list handle) c ch w :
  open_on c ch -> Chan.cap ch <= Z.of_nat (length (Chan.buf ch)) ->
  run (puts hs) c w =
  Ok (map (fun _ => PutReturned None) hs, c,
      mkWorld (fenv w) (events w ++ map IdleClosed hs)).
Proof.
  intros Hopen Hfull. revert w. induction hs as [|h hs IH]; intros w.
  - simpl. unfold ret. rewrite world_same. reflexivity.
  - unfold puts. cbn [map]. fold (puts hs).
    eapply run_cons.
    + apply step_Put. exact (Put_releases c ch h w Hopen Hfull).
    + rewrite IH. cbn [fenv events]. rewrite <- app_assoc. reflexivity.
Qed.

Lemma puts_app (a b : list handle) : puts (a ++ b) = puts a ++ puts b.
Proof. unfold puts. apply map_app. Qed.

(** X1: the buffer is a queue.  On an open pool with an empty buffer of
    capacity at least [length hs], putting the clients [hs] and then calling
    [Get] [length hs] times returns exactly [hs], in the order they were put;
    no [Put] fails, the factory is not called, nothing is released, and the
    pool ends as it started. *)
Theorem puts_then_gets (hs : list handle) c ch w :
  open_on c ch -> Chan.buf ch = [] ->
  Z.of_nat (length hs) <= Chan.cap ch ->
  run (puts hs ++ gets (length hs)) c w =
  Ok (map (fun _ => PutReturned None) hs
      ++ map (fun h => GetReturned (Some h)) hs, c, w).
Proof.
  intros Hopen Hb Hroom.
  eapply run_app.
  - rewrite (run_puts_fit hs c ch w Hopen) by (rewrite Hb; simpl; lia).
    rewrite Hb. cbn [app]. reflexivity.
  - replace (length hs) with (length (map (@Some handle) hs))
      by apply length_map.
    etransitivity.
    + apply (run_gets_stocked (map Some hs) []
               (set_clients c (Chan.set_buf ch (map Some hs)))
               (Chan.set_buf ch (map Some hs)) w eq_refl).
      simpl. rewrite app_nil_r. reflexivity.
    + rewrite map_map. cbn [set_clients factory].
      destruct Hopen as [Hc _]. destruct c as [cl fa], ch as [b k cd].
      simpl in *. subst. reflexivity.
Qed.


(** X3: on every pool on which [Done] has returned, [Len()] is 0 and every
    later [Get] returns the nil pointer: the receive on the closed channel
    proceeds with the zero value, the factory is not called, and the pool is
    left as it was. *)
Theorem Get_after_Done c w c' w' :
  Done c w = Ok (c', w') ->
  Len c' = 0 /\ forall w2, Get c' w2 = Ok (None, c', w2).
Proof.
  intros H.
  destruct (Done_returns_closed c w c' w' H) as (ch & Hc & Hcl & Hb).
  split.
  - rewrite (Len_open c' ch Hc), Hb. reflexivity.
  - intros w2. unfold Get, getConnsAndFactory, Chan.try_recv.
    rewrite Hc, Hb, Hcl. unfold ret.
    rewrite (set_clients_same c' ch Hc). reflexivity.
Qed.

(** X4: on every pool on which [Done] has returned, [Put] of any non-nil
    client panics with a send on a closed channel: [Done] leaves the buffer
    reference set, so the nil test in [Put] does not fire. *)
Theorem Put_after_Done_always_panics c w c' w' :
  Done c w = Ok (c', w') ->
  forall h w2, Put c' (Some h) w2 = Panic SendOnClosedChannel.
Proof.
  intros H h w2.
  destruct (Done_returns_closed c w c' w' H) as (ch & Hc & Hcl & _).
  exact (Put_on_closed_channel c' ch h w2 Hc Hcl).
Qed.


(** X6: [Put] never parks, in any pool state, and panics in exactly one
    case: the client is non-nil and the buffer reference is a closed channel;
    the panic is then a send on a closed channel. *)
Theorem Put_panics_iff c client w :
  Put c client w <> Blocked
  /\ (forall p, Put c client w = Panic p -> p = SendOnClosedChannel)
  /\ (Put c client w = Panic SendOnClosedChannel <->
      is_client client = true
      /\ exists ch, clients c = Some ch /\ Chan.closed ch = true).
Proof.
  unfold Put, bind, lift, Chan.try_send, CloseIdleConnections, emit, ret.
  destruct client as [h|]; simpl.
  - destruct (clients c) as [ch|] eqn:Hc.
    + destruct (Chan.closed ch) eqn:Hcl.
      * split; [discriminate|]. split; [congruence|].
        split; [|reflexivity]. intros _. split; [reflexivity|].
        exists ch. auto.
      * destruct (Chan.full ch);
          (split; [discriminate|]; split; [discriminate|];
           split; [discriminate|]; intros [_ (ch' & E & Hcl')]; congruence).
    + split; [discriminate|]. split; [discriminate|].
      split; [discriminate|]. intros [_ (ch' & E & _)]. discriminate.
  - split; [discriminate|]. split; [discriminate|].
    split; [discriminate|]. intros [E _]. discriminate.
Qed.

(** X7: whenever [Put] returns, it has not called the factory, and it has
    either left the world as it was, or called [CloseIdleConnections] on the
    client it was given and on no other, leaving the pool as it was.  In
    every case the pool keeps its factory and [Len()] grows by at most one. *)
Theorem Put_touches_only_its_client c client w e c' w' :
  Put c client w = Ok (e, c', w') ->
  fenv w' = fenv w
  /\ factory c' = factory c
  /\ Len c <= Len c' <= Len c + 1
  /\ (w' = w
      \/ exists h, client = Some h /\ c' = c
                   /\ events w' = events w ++ [IdleClosed h]).
Proof.
  unfold Put, bind, lift, Chan.try_send, CloseIdleConnections, emit, ret.
  destruct client as [h|].
  - destruct (clients c) as [ch|] eqn:Hc.
    + destruct (Chan.closed ch); [discriminate|].
      destruct (Chan.full ch); intros E; simpl in E;
        injection E as _ <- <-.
      * simpl. repeat split; try lia. right. exists h. auto.
      * rewrite Len_set_clients, (Len_open c ch Hc). simpl.
        rewrite length_app. simpl.
        repeat split; try lia. left. reflexivity.
    + simpl. intros E. injection E as _ <- <-.
      simpl. repeat split; try lia. right. exists h. auto.
  - intros E. injection E as _ <- <-.
    repeat split; try lia. left. reflexivity.
Qed.

(** X8: successive [Put]s of non-nil clients on an open pool fill the free
    room of the buffer and release the rest.  With [room] the free room
    ([cap - Len()]), every [Put] returns the nil error, the first [room]
    clients are queued behind what was queued, in order, the clients after
    them are released, in order, and [Len()] ends at the smaller of the
    capacity and [Len() + length hs]. *)
Theorem puts_fill_then_release (hs : list handle) c ch w :
  open_on c ch -> Chan.wf ch ->
  let room := Z.to_nat (Chan.cap ch - Z.of_nat (length (Chan.buf ch))) in
  let c' := set_clients c
              (Chan.set_buf ch (Chan.buf ch ++ map Some (firstn room hs))) in
  run (puts hs) c w =
  Ok (map (fun _ => PutReturned None) hs, c',
      mkWorld (fenv w) (events w ++ map IdleClosed (skipn room hs)))
  /\ Len c' = Z.min (Chan.cap ch) (Len c + Z.of_nat (length hs)).
Proof.
  intros Hopen Hwf room c'. subst c'. unfold Chan.wf in Hwf.
  pose proof Hopen as [Hc Ho].
  assert (Hfit : Z.of_nat (length (Chan.buf ch))
                 + Z.of_nat (length (firstn room hs)) <= Chan.cap ch).
  { pose proof (firstn_le_length room hs).
    assert (length (firstn room hs) <= room)%nat
      by (rewrite length_firstn; apply Nat.le_min_l).
    subst room. lia. }
  split.
  - destruct (Nat.le_gt_cases (length hs) room) as [Hle|Hgt].
    + rewrite (firstn_all2 hs Hle), (skipn_all2 hs Hle). simpl map.
      rewrite world_same.
      apply (run_puts_fit hs c ch w Hopen).
      rewrite (firstn_all2 hs Hle) in Hfit. exact Hfit.
    + rewrite <- (firstn_skipn room hs) at 1 2.
      rewrite puts_app, map_app.
      eapply run_app.
      * exact (run_puts_fit (firstn room hs) c ch w Hopen Hfit).
      * apply (run_puts_full (skipn room hs) _
                 (Chan.set_buf ch (Chan.buf ch ++ map Some (firstn room hs)))).
        -- apply (open_on_set_buf c ch _ Ho).
        -- simpl. rewrite length_app, length_map, length_firstn.
           subst room. lia.
  - rewrite Len_set_clients, (Len_open c ch Hc). simpl.
    rewrite length_app, length_map, length_firstn. subst room. lia.
Qed.

(** *** [Done] *)

Lemma drain_nil (ps : list ptr) w :
  In None ps -> drain ps w = Panic NilPointerDereference.
Proof.
  revert w. induction ps as [|p ps IH]; intros w Hin; [destruct Hin|].
  cbn [drain]. unfold bind. destruct p as [h|].
  - destruct Hin as [E|Hin]; [discriminate|].
    unfold CloseIdleConnections, emit. apply IH. exact Hin.
  - reflexivity.
Qed.

Lemma all_clients (ps : list ptr) :
  forallb is_client ps = true -> exists hs, ps = map Some hs.
Proof.
  induction ps as [|p ps IH]; intros H.
  - exists []. reflexivity.
  - simpl in H. apply andb_true_iff in H. destruct H as [Hp Hps].
    destruct (IH Hps) as [hs ->]. destruct p as [h|]; [|discriminate].
    exists (h :: hs). reflexivity.
Qed.

Lemma some_client (ps : list ptr) :
  forallb is_client ps = false -> In None ps.
Proof.
  induction ps as [|p ps IH]; intros H; [discriminate|].
  simpl in H. destruct p as [h|]; [right; apply IH; exact H | left; reflexivity].
Qed.

Lemma Done_releases c ch (hs : list handle) w :
  open_on c ch -> Chan.buf ch = map Some hs ->
  Done c w =
  Ok (set_clients c (Chan.mkChan [] (Chan.cap ch) true),
      mkWorld (fenv w) (events w ++ map IdleClosed hs)).
Proof.
  intros [Hc Ho] Hb. unfold Done, bind, lift, Chan.close.
  rewrite Hc, Ho. cbn [Chan.buf Chan.set_closed]. rewrite Hb.
  rewrite drain_clients. reflexivity.
Qed.

Lemma Done_panics_on_nil_resident_aux c ch w :
  open_on c ch -> In None (Chan.buf ch) ->
  Done c w = Panic NilPointerDereference.
Proof.
  intros [Hc Ho] Hin. unfold Done, bind, lift, Chan.close.
  rewrite Hc, Ho. cbn [Chan.buf Chan.set_closed].
  rewrite (drain_nil _ w Hin). reflexivity.
Qed.

(** X9: [Done] on an open pool whose buffer holds a nil pointer panics with
    a nil dereference: the loop calls [CloseIdleConnections] on every queued
    pointer without testing it. *)
Theorem Done_panics_on_nil_resident c ch w :
  open_on c ch -> In None (Chan.buf ch) ->
  Done c w = Panic NilPointerDereference.
Proof.
  intros [Hc Ho] Hin. unfold Done, bind, lift, Chan.close.
  rewrite Hc, Ho. cbn [Chan.buf Chan.set_closed].
  rewrite (drain_nil _ w Hin). reflexivity.
Qed.

(** X10: [Done] never parks, and it returns exactly when the pool is open
    (the buffer reference is a channel that has not been closed) and every
    queued pointer is a client; in every other state it panics. *)
Theorem Done_returns_iff c w :
  Done c w <> Blocked
  /\ ((exists c' w', Done c w = Ok (c', w')) <->
      exists ch, open_on c ch /\ forallb is_client (Chan.buf ch) = true).
Proof.
  destruct (clients c) as [ch|] eqn:Hc.
  - destruct (Chan.closed ch) eqn:Ho.
    + assert (E : Done c w = Panic CloseOfClosedChannel)
        by (unfold Done, bind, lift, Chan.close; rewrite Hc, Ho; reflexivity).
      rewrite E. split; [discriminate|]. split.
      * intros (c' & w' & H). discriminate.
      * intros (ch' & [Hc' Ho'] & _). congruence.
    + destruct (forallb is_client (Chan.buf ch)) eqn:Hall.
      * destruct (all_clients _ Hall) as [hs Hb].
        rewrite (Done_releases c ch hs w (conj Hc Ho) Hb).
        split; [discriminate|]. split.
        -- intros _. exists ch. repeat split; assumption.
        -- intros _. do 2 eexists. reflexivity.
      * rewrite (Done_panics_on_nil_resident_aux c ch w (conj Hc Ho)
                   (some_client _ Hall)).
        split; [discriminate|]. split.
        -- intros (c' & w' & H). discriminate.
        -- intros (ch' & [Hc' _] & Hall'). congruence.
  - assert (E : Done c w = Panic CloseOfNilChannel)
      by (unfold Done, bind, lift, Chan.close; rewrite Hc; reflexivity).
    rewrite E. split; [discriminate|]. split.
    + intros (c' & w' & H). discriminate.
    + intros (ch' & [Hc' _] & _). congruence.
Qed.

(** *** Whole lifetimes *)

Lemma built_with_set_buf maxCap c ch (b : list ptr) :
  Chan.cap ch = maxCap ->
  Z.of_nat (length b) <= maxCap ->
  built_with maxCap (factory c) (set_clients c (Chan.set_buf ch b)).
Proof.
  intros Hcap Hb. exists (Chan.set_buf ch b).
  repeat split; try assumption. unfold Chan.wf. simpl. lia.
Qed.

Lemma NewClientPool_built_with initialCap maxCap f w c w1 :
  NewClientPool chanLimit initialCap maxCap f w = Ok (Some c, None, w1) ->
  built_with maxCap f c.
Proof.
  intros H.
  destruct (NewClientPool_returns _ _ _ _ _ _ _ H) as (Hi & Hm & Hl).
  rewrite (NewClientPool_valid _ initialCap maxCap f w Hi Hm Hl) in H.
  injection H as <- _. eexists. repeat split.
  unfold Chan.wf. simpl. rewrite produce_length. lia.
Qed.

Lemma Get_built_with maxCap f c w p c' w' :
  built_with maxCap f c -> Get c w = Ok (p, c', w') -> built_with maxCap f c'.
Proof.
  intros Hbw H. pose proof Hbw as (ch & Hc & Hcap & Hwf & Hf).
  unfold Chan.wf in Hwf.
  unfold Get, getConnsAndFactory, Chan.try_recv in H. rewrite Hc in H.
  destruct (Chan.buf ch) as [|v rest] eqn:Hb.
  - destruct (Chan.closed ch).
    + unfold ret in H. injection H as _ <- _.
      rewrite (set_clients_same c ch Hc). exact Hbw.
    + unfold bind, call, ret in H. destruct (factory c (fenv w)).
      injection H as _ <- _. exact Hbw.
  - unfold ret in H. injection H as _ <- _. rewrite <- Hf.
    apply built_with_set_buf; try assumption. simpl in Hwf. lia.
Qed.

Lemma Put_built_with maxCap f c client w e c' w' :
  built_with maxCap f c -> Put c client w = Ok (e, c', w') ->
  built_with maxCap f c'.
Proof.
  intros Hbw H. pose proof Hbw as (ch & Hc & Hcap & Hwf & Hf).
  unfold Chan.wf in Hwf.
  unfold Put, bind, lift, Chan.try_send, CloseIdleConnections, emit, ret in H.
  rewrite Hc in H. destruct client as [h|].
  - destruct (Chan.closed ch); [discriminate|].
    unfold Chan.full in H.
    destruct (Z.leb_spec (Chan.cap ch) (Z.of_nat (length (Chan.buf ch))));
      simpl in H; injection H as _ <- _.
    + exact Hbw.
    + rewrite <- Hf. apply built_with_set_buf; try assumption.
      rewrite length_app. simpl. lia.
  - injection H as _ <- _. exact Hbw.
Qed.

Lemma Done_built_with maxCap f c w c' w' :
  built_with maxCap f c -> Done c w = Ok (c', w') -> built_with maxCap f c'.
Proof.
  intros (ch & Hc & Hcap & Hwf & Hf) H.
  unfold Done, bind, lift, Chan.close in H. rewrite Hc in H.
  destruct (Chan.closed ch); [discriminate|].
  destruct (drain (Chan.buf (Chan.set_closed ch)) w) as [[[] w1]| |];
    try discriminate.
  unfold ret in H. injection H as <- _. rewrite <- Hf.
  apply (built_with_set_buf maxCap c (Chan.set_closed ch) []).
  - exact Hcap.
  - simpl. unfold Chan.wf in Hwf. lia.
Qed.

Lemma exec_built_with maxCap f (acts : list action) c w c' w' :
  built_with maxCap f c -> exec acts c w = Ok (c', w') ->
  built_with maxCap f c'.
Proof.
  revert c w. induction acts as [|a acts IH]; intros c w Hbw H.
  - simpl in H. unfold ret in H. injection H as <- _. exact Hbw.
  - destruct a as [o|]; cbn [exec] in H; unfold bind in H.
    + destruct (step o c w) as [[[r c1] w1]| |] eqn:Hs; try discriminate.
      cbn [snd] in H. apply (IH c1 w1); [|exact H].
      destruct o as [|client]; cbn [step] in Hs; unfold bind in Hs.
      * destruct (Get c w) as [[[p c2] w2]| |] eqn:Hg; try discriminate.
        unfold ret in Hs. cbn [fst snd] in Hs. injection Hs as _ <- _.
        exact (Get_built_with maxCap f c w p c2 w2 Hbw Hg).
      * destruct (Put c client w) as [[[e c2] w2]| |] eqn:Hp;
          try discriminate.
        unfold ret in Hs. cbn [fst snd] in Hs. injection Hs as _ <- _.
        exact (Put_built_with maxCap f c client w e c2 w2 Hbw Hp).
    + destruct (Done c w) as [[c1 w1]| |] eqn:Hd; try discriminate.
      apply (IH c1 w1); [|exact H].
      exact (Done_built_with maxCap f c w c1 w1 Hbw Hd).
Qed.

(** X11: on a pool built by [NewClientPool(initialCap, maxCap, f)], after
    any calls of [Get], [Put] and [Done] that have all returned, the buffer
    reference is still a channel (never nil) of capacity [maxCap], the
    factory is still [f], and [0 <= Len() <= maxCap].  So the branch of [Put]
    that tests the buffer reference for nil is never taken on such a pool. *)
Theorem exec_keeps_buffer initialCap maxCap f w c w1 :
  NewClientPool chanLimit initialCap maxCap f w = Ok (Some c, None, w1) ->
  forall (acts : list action) w2 c' w',
    exec acts c w2 = Ok (c', w') ->
    built_with maxCap f c' /\ clients c' <> None /\ 0 <= Len c' <= maxCap.
Proof.
  intros Hnew acts w2 c' w' H.
  pose proof (NewClientPool_built_with _ _ _ _ _ _ Hnew) as Hbw.
  pose proof (exec_built_with maxCap f acts c w2 c' w' Hbw H) as Hbw'.
  split; [exact Hbw'|].
  destruct Hbw' as (ch & Hc & Hcap & Hwf & _). unfold Chan.wf in Hwf.
  split; [congruence|]. rewrite (Len_open c' ch Hc). lia.
Qed.

Lemma clients_are_handles (ps : list ptr) :
  Forall (fun p => p <> None) ps -> exists hs, ps = map Some hs.
Proof.
  induction 1 as [|p ps Hp _ [hs ->]].
  - exists []. reflexivity.
  - destruct p as [h|]; [|congruence]. exists (h :: hs). reflexivity.
Qed.

(** X12: nothing leaks between construction and shutdown.  With valid
    capacities within what the runtime can allocate for a channel and a
    factory that never returns nil, [NewClientPool] followed
    at once by [Done] returns, and the events are exactly the creation of
    [initialCap] clients followed by [CloseIdleConnections] on those same
    clients in the same order; the pool ends with [Len() = 0]. *)
Theorem NewClientPool_then_Done initialCap maxCap f w :
  0 <= initialCap <= maxCap -> 1 <= maxCap -> maxCap <= chanLimit ->
  makes_clients f ->
  exists c w1 c' w2 (hs : list handle),
    NewClientPool chanLimit initialCap maxCap f w = Ok (Some c, None, w1)
    /\ Done c w1 = Ok (c', w2)
    /\ Z.of_nat (length hs) = initialCap
    /\ events w2 =
       events w ++ map Created (map Some hs) ++ map IdleClosed hs
    /\ Len c' = 0.
Proof.
  intros Hi Hm Hl Hf.
  pose proof (NewClientPool_valid chanLimit initialCap maxCap f w Hi Hm Hl)
    as Hnew.
  destruct (clients_are_handles _
              (produce_clients (Z.to_nat initialCap) f (fenv w) Hf))
    as [hs Hhs].
  pose proof (produce_length (Z.to_nat initialCap) f (fenv w)) as Hlen.
  rewrite Hhs in Hnew, Hlen. rewrite length_map in Hlen.
  do 4 eexists. exists hs.
  split; [exact Hnew|]. split.
  - apply (Done_releases _ (Chan.mkChan (map Some hs) maxCap false) hs).
    + split; reflexivity.
    + reflexivity.
  - split; [lia|]. split; [|reflexivity].
    simpl. rewrite <- app_assoc. reflexivity.
Qed.

Lemma replies_are_clients maxCap (ops : list op) c w rs c' w' :
  in_service maxCap c -> holds_clients c -> makes_clients (factory c) ->
  run ops c w = Ok (rs, c', w') ->
  forall p, In (GetReturned p) rs -> p <> None.
Proof.
  revert c w rs. induction ops as [|o ops IH]; intros c w rs Hin Hh Hf Hr p Hp.
  - simpl in Hr. unfold ret in Hr. injection Hr as <- _ _. destruct Hp.
  - cbn [run] in Hr. unfold bind in Hr.
    destruct (step o c w) as [[[r c1] w1]| |] eqn:Hs; try discriminate.
    cbn [fst snd] in Hr.
    destruct (run ops c1 w1) as [[[rs1 c2] w2]| |] eqn:Hr1; try discriminate.
    unfold ret in Hr. cbn [fst snd] in Hr. injection Hr as <- <- <-.
    destruct (step_holds_clients o c w r c1 w1 Hf Hh Hs) as [Hh1 Hf1].
    destruct (step_in_service maxCap o c w Hin) as (r' & c1' & w1' & Hs' & Hin1).
    rewrite Hs in Hs'. injection Hs' as <- <- <-.
    destruct Hp as [Hp|Hp].
    + subst r. destruct Hin as (ch & Hopen & _ & _).
      destruct o as [|client]; cbn [step] in Hs; unfold bind in Hs.
      * destruct (Chan.buf ch) as [|v rest] eqn:Hb.
        -- rewrite (Get_calls_factory c ch w Hopen Hb) in Hs.
           unfold ret in Hs. cbn [fst snd] in Hs. injection Hs as <- _ _.
           apply Hf.
        -- destruct Hopen as [Hc Ho].
           rewrite (Get_takes_head c ch v rest w Hc Hb) in Hs.
           unfold ret in Hs. cbn [fst snd] in Hs. injection Hs as <- _ _.
           specialize (Hh ch Hc). rewrite Hb in Hh.
           inversion Hh; assumption.
      * destruct (Put c client w) as [[[e c2'] w2']| |]; discriminate.
    + rewrite <- Hf1 in Hf. exact (IH c1 w1 rs1 Hin1 Hh1 Hf Hr1 p Hp).
Qed.

(** X13: a pool built by [NewClientPool] with a factory that never returns
    nil never hands out nil: over any sequence of [Get] and [Put] calls, what
    every [Get] returns is a client. *)
Theorem Get_replies_are_clients initialCap maxCap f w c w1 :
  makes_clients f ->
  NewClientPool chanLimit initialCap maxCap f w = Ok (Some c, None, w1) ->
  forall (ops : list op) w2 rs c' w',
    run ops c w2 = Ok (rs, c', w') ->
    forall p, In (GetReturned p) rs -> p <> None.
Proof.
  intros Hf Hnew ops w2 rs c' w' Hr.
  destruct (NewClientPool_holds_clients _ _ _ _ _ _ _ Hf Hnew) as [Hh Hfc].
  apply (replies_are_clients maxCap ops c w2 rs c' w').
  - exact (NewClientPool_in_service _ _ _ _ _ _ _ Hnew).
  - exact Hh.
  - rewrite Hfc. exact Hf.
  - exact Hr.
Qed.

End Lifetimes.

(** ** The further properties on concrete pools *)

Lemma puts_then_gets_witness :
  open_on pool_three (Chan.mkChan [] 3 false)
  /\ run (puts [5%nat; 6%nat; 7%nat] ++ gets 3) pool_three w0 =
     Ok ([PutReturned None; PutReturned None; PutReturned None;
          GetReturned (Some 5%nat); GetReturned (Some 6%nat);
          GetReturned (Some 7%nat)], pool_three, w0).
Proof.
  assert (H : open_on pool_three (Chan.mkChan [] 3 false))
    by (split; reflexivity).
  split; [exact H|].
  apply (puts_then_gets [5%nat; 6%nat; 7%nat] pool_three _ w0 H eq_refl).
  simpl. lia.
Defined.


Lemma Get_after_Done_witness :
  Done pool_empty w0 = Ok (pool_shut, w0)
  /\ Len pool_shut = 0
  /\ forall w2, Get pool_shut w2 = Ok (None, pool_shut, w2).
Proof.
  split; [reflexivity|].
  exact (Get_after_Done pool_empty w0 pool_shut w0 eq_refl).
Defined.

Lemma Put_after_Done_always_panics_witness :
  Done pool_empty w0 = Ok (pool_shut, w0)
  /\ forall h w2, Put pool_shut (Some h) w2 = Panic SendOnClosedChannel.
Proof.
  split; [reflexivity|].
  exact (Put_after_Done_always_panics pool_empty w0 pool_shut w0 eq_refl).
Defined.

Lemma Put_touches_only_its_client_witness :
  Put pool_two (Some 7%nat) w0 =
  Ok (None, pool_two, mkWorld 0%nat [IdleClosed 7%nat])
  /\ fenv (mkWorld 0%nat [IdleClosed 7%nat]) = fenv w0
  /\ factory pool_two = factory pool_two
  /\ Len pool_two <= Len pool_two <= Len pool_two + 1
  /\ (mkWorld 0%nat [IdleClosed 7%nat] = w0
      \/ exists h, Some 7%nat = Some h /\ pool_two = pool_two
                   /\ events (mkWorld 0%nat [IdleClosed 7%nat]) =
                      events w0 ++ [IdleClosed h]).
Proof.
  split; [reflexivity|].
  exact (Put_touches_only_its_client pool_two (Some 7%nat) w0 None pool_two
           (mkWorld 0%nat [IdleClosed 7%nat]) eq_refl).
Defined.

Lemma puts_fill_then_release_witness :
  open_on pool_one (Chan.mkChan [Some 0%nat] 2 false)
  /\ Chan.wf (Chan.mkChan [Some 0%nat] 2 false)
  /\ run (puts [5%nat; 6%nat; 7%nat]) pool_one w0 =
     Ok ([PutReturned None; PutReturned None; PutReturned None],
         mkPool (Some (Chan.mkChan [Some 0%nat; Some 5%nat] 2 false)) counter,
         mkWorld 0%nat [IdleClosed 6%nat; IdleClosed 7%nat])
  /\ Len (mkPool (Some (Chan.mkChan [Some 0%nat; Some 5%nat] 2 false)) counter)
     = Z.min 2 (Len pool_one + 3).
Proof.
  assert (H : open_on pool_one (Chan.mkChan [Some 0%nat] 2 false))
    by (split; reflexivity).
  assert (Hwf : Chan.wf (Chan.mkChan [Some 0%nat] 2 false))
    by (unfold Chan.wf; simpl; lia).
  split; [exact H|]. split; [exact Hwf|].
  exact (puts_fill_then_release [5%nat; 6%nat; 7%nat] pool_one _ w0 H Hwf).
Defined.

Lemma Done_panics_on_nil_resident_witness :
  open_on pool_nil (Chan.mkChan [Some 0%nat; None] 2 false)
  /\ In None [Some 0%nat; @None handle]
  /\ Done pool_nil w0 = Panic NilPointerDereference.
Proof.
  assert (H : open_on pool_nil (Chan.mkChan [Some 0%nat; None] 2 false))
    by (split; reflexivity).
  assert (Hin : In None [Some 0%nat; @None handle])
    by (simpl; right; left; reflexivity).
  split; [exact H|]. split; [exact Hin|].
  exact (Done_panics_on_nil_resident pool_nil _ w0 H Hin).
Defined.

Lemma exec_keeps_buffer_witness :
  NewClientPool chanLimit64 1 2 counter w0 =
  Ok (Some pool_one, None, mkWorld 1%nat [Created (Some 0%nat)])
  /\ exec [Call OpGet; Call (OpPut (Some 9%nat)); Shutdown; Call OpGet]
          pool_one w0 =
     Ok (mkPool (Some (Chan.mkChan [] 2 true)) counter,
         mkWorld 0%nat [IdleClosed 9%nat])
  /\ built_with 2 counter (mkPool (Some (Chan.mkChan [] 2 true)) counter)
  /\ clients (mkPool (Some (Chan.mkChan [] 2 true)) counter) <> None
  /\ 0 <= Len (mkPool (Some (Chan.mkChan [] 2 true)) counter) <= 2.
Proof.
  split; [reflexivity|]. split; [reflexivity|].
  exact (exec_keeps_buffer chanLimit64 1 2 counter w0 pool_one
           (mkWorld 1%nat [Created (Some 0%nat)]) eq_refl
           [Call OpGet; Call (OpPut (Some 9%nat)); Shutdown; Call OpGet]
           w0 _ _ eq_refl).
Defined.

Lemma NewClientPool_then_Done_witness :
  0 <= 2 <= 5 /\ 1 <= 5 /\ 5 <= chanLimit64 /\ makes_clients counter
  /\ exists c w1 c' w2 (hs : list handle),
       NewClientPool chanLimit64 2 5 counter w0 = Ok (Some c, None, w1)
       /\ Done c w1 = Ok (c', w2)
       /\ Z.of_nat (length hs) = 2
       /\ events w2 =
          events w0 ++ map Created (map Some hs) ++ map IdleClosed hs
       /\ Len c' = 0.
Proof.
  assert (Hi : 0 <= 2 <= 5) by lia.
  assert (Hm : 1 <= 5) by lia.
  assert (Hf : makes_clients counter) by (intros s; simpl; discriminate).
  assert (Hl : 5 <= chanLimit64) by (vm_compute; discriminate).
  split; [exact Hi|]. split; [exact Hm|]. split; [exact Hl|].
  split; [exact Hf|].
  exact (NewClientPool_then_Done chanLimit64 2 5 counter w0 Hi Hm Hl Hf).
Defined.

Lemma Get_replies_are_clients_witness :
  makes_clients counter
  /\ NewClientPool chanLimit64 1 2 counter w0 =
     Ok (Some pool_one, None, mkWorld 1%nat [Created (Some 0%nat)])
  /\ run [OpGet; OpGet; OpPut (Some 9%nat); OpGet] pool_one
         (mkWorld 1%nat [Created (Some 0%nat)]) =
     Ok ([GetReturned (Some 0%nat); GetReturned (Some 1%nat);
          PutReturned None; GetReturned (Some 9%nat)],
         mkPool (Some (Chan.mkChan [] 2 false)) counter,
         mkWorld 2%nat [Created (Some 0%nat); Created (Some 1%nat)])
  /\ In (GetReturned (Some 1%nat))
        [GetReturned (Some 0%nat); GetReturned (Some 1%nat);
         PutReturned None; GetReturned (Some 9%nat)]
  /\ Some 1%nat <> None.
Proof.
  assert (Hf : makes_clients counter) by (intros s; simpl; discriminate).
  assert (Hin : In (GetReturned (Some 1%nat))
                   [GetReturned (Some 0%nat); GetReturned (Some 1%nat);
                    PutReturned None; GetReturned (Some 9%nat)])
    by (simpl; right; left; reflexivity).
  split; [exact Hf|]. split; [reflexivity|]. split; [reflexivity|].
  split; [exact Hin|].
  exact (Get_replies_are_clients chanLimit64 1 2 counter w0 pool_one
           (mkWorld 1%nat [Created (Some 0%nat)]) Hf eq_refl
           [OpGet; OpGet; OpPut (Some 9%nat); OpGet]
           (mkWorld 1%nat [Created (Some 0%nat)]) _ _ _ eq_refl
           (Some 1%nat) Hin).
Defined.
